(** * Mini Audit Trail Generator: the backend server, embedded and verified

    A shallow embedding of the Express backend (tokenizer, word differ,
    version-entry builder and the [/save-version] handler) together with
    the properties its specification states about it.

    JavaScript strings are sequences of UTF-16 code units; they are
    modelled as [list N].  The counting objects of the differ are plain
    object literals, so property reads fall back on [Object.prototype];
    that fallback is part of the model. *)

From Stdlib Require Import ZArith NArith Ascii String DecimalString.
From stdpp Require Import gmap list.

Local Open Scope Z_scope.
Set Warnings "-register-all,-clear-no-such-hyp".

(** ** JavaScript strings *)

Abbreviation jsstring := (list N) (only parsing).

(** A literal, code unit by code unit (all literals used here are ASCII). *)
Definition js (s : string) : jsstring := N_of_ascii <$> list_ascii_of_string s.

(** [WhiteSpace] and [LineTerminator] code units: what [String.prototype.trim]
    strips and what the regular-expression class [\s] matches. *)
Definition is_ws (c : N) : bool :=
  bool_decide (c ∈ [9; 10; 11; 12; 13; 32; 160; 5760; 8232; 8233; 8239; 8287;
                    12288; 65279]%N)
  || ((8192 <=? c) && (c <=? 8202))%N.

(** ** JavaScript values that occur in the differ *)

Inductive jsprim : Type :=
| PNum (n : Z)                (* a Number holding an integer *)
| PStr (s : jsstring).        (* a String *)

Inductive jsval : Type :=
| Prim (p : jsprim)
| Builtin (src : jsstring).   (* a built-in object; [src] is the string that
                                 ToPrimitive yields for it *)

(** ToBoolean *)
Definition js_truthy (v : jsval) : bool :=
  match v with
  | Prim (PNum n) => negb (n =? 0)
  | Prim (PStr s) => negb (bool_decide (s = []))
  | Builtin _ => true
  end.

(** [x || d], where [None] stands for [undefined] *)
Definition js_or (x : option jsval) (d : jsval) : jsval :=
  match x with
  | Some v => if js_truthy v then v else d
  | None => d
  end.

(** ToPrimitive: a built-in object's [valueOf] returns the object itself,
    so its [toString] decides. *)
Definition ToPrimitive (v : jsval) : jsprim :=
  match v with
  | Prim p => p
  | Builtin src => PStr src
  end.

(** Number::toString on integers *)
Definition Z_to_jsstring (n : Z) : jsstring :=
  js (NilZero.string_of_int (Z.to_int n)).

Definition ToString (p : jsprim) : jsstring :=
  match p with
  | PNum n => Z_to_jsstring n
  | PStr s => s
  end.

Definition is_digit (c : N) : bool := ((48 <=? c) && (c <=? 57))%N.

Fixpoint digits_value (acc : Z) (s : jsstring) : option Z :=
  match s with
  | [] => Some acc
  | c :: s' =>
      if is_digit c then digits_value (10 * acc + (Z.of_N c - 48)) s' else None
  end.

Fixpoint drop_ws (s : jsstring) : jsstring :=
  match s with
  | c :: s' => if is_ws c then drop_ws s' else s
  | [] => []
  end.

(** [String.prototype.trim] *)
Definition trim (s : jsstring) : jsstring := rev (drop_ws (rev (drop_ws s))).

(** StringToNumber, for the signed decimal integer literals; [None] is NaN.
    The remaining literal forms (fractions, exponents, radix prefixes,
    [Infinity]) are read as NaN here; none of them starts with the letters
    the differ's strings start with. *)
Definition StringToNumber (s : jsstring) : option Z :=
  match trim s with
  | [] => Some 0
  | c :: s' =>
      if (c =? 43)%N then
        if bool_decide (s' = []) then None else digits_value 0 s'
      else if (c =? 45)%N then
        if bool_decide (s' = []) then None else Z.opp <$> digits_value 0 s'
      else digits_value 0 (c :: s')
  end.

Definition ToNumber (p : jsprim) : option Z :=
  match p with
  | PNum n => Some n
  | PStr s => StringToNumber s
  end.

(** [a + b]: concatenation as soon as one primitive operand is a string *)
Definition js_add (a b : jsval) : jsprim :=
  match ToPrimitive a, ToPrimitive b with
  | PNum x, PNum y => PNum (x + y)
  | pa, pb => PStr (ToString pa ++ ToString pb)
  end.

(** [a - b]; [None] is NaN *)
Definition js_sub (a b : jsval) : option Z :=
  match ToNumber (ToPrimitive a), ToNumber (ToPrimitive b) with
  | Some x, Some y => Some (x - y)
  | _, _ => None
  end.

(** Code-unit-wise [x < y] on strings *)
Fixpoint str_lt (x y : jsstring) : bool :=
  match x, y with
  | _, [] => false
  | [], _ :: _ => true
  | a :: x', b :: y' => (a <? b)%N || ((a =? b)%N && str_lt x' y')
  end.

(** [a > b] *)
Definition js_gt (a b : jsval) : bool :=
  match ToPrimitive a, ToPrimitive b with
  | PStr x, PStr y => str_lt y x
  | pa, pb =>
      match ToNumber pa, ToNumber pb with
      | Some x, Some y => y <? x
      | _, _ => false
      end
  end.

(** ** Object literals used as dictionaries *)

(** The properties every object literal inherits from [Object.prototype],
    each with the function it names ([constructor] is [Object]). *)
Definition object_prototype_functions : list (string * string) :=
  [ ("constructor", "Object");
    ("__defineGetter__", "__defineGetter__");
    ("__defineSetter__", "__defineSetter__");
    ("hasOwnProperty", "hasOwnProperty");
    ("__lookupGetter__", "__lookupGetter__");
    ("__lookupSetter__", "__lookupSetter__");
    ("isPrototypeOf", "isPrototypeOf");
    ("propertyIsEnumerable", "propertyIsEnumerable");
    ("toString", "toString");
    ("valueOf", "valueOf");
    ("toLocaleString", "toLocaleString") ]%string.

Definition native_function_source (name : string) : jsstring :=
  js ("function " ++ name ++ "() { [native code] }")%string.

Definition proto_key : jsstring := js "__proto__".

Fixpoint lookup_function (tbl : list (string * string)) (key : jsstring)
  : option jsval :=
  match tbl with
  | [] => None
  | (k, f) :: tbl' =>
      if bool_decide (key = js k) then Some (Builtin (native_function_source f))
      else lookup_function tbl' key
  end.

(** Reading a property of [Object.prototype] through an object created by
    [{}]: [__proto__] is the accessor that returns the prototype object. *)
Definition ObjectPrototype (key : jsstring) : option jsval :=
  if bool_decide (key = proto_key) then Some (Builtin (js "[object Object]"))
  else lookup_function object_prototype_functions key.

(** An object literal: its own properties.  The differ only ever stores
    primitives in them. *)
Abbreviation jsobject := (gmap (list N) jsprim) (only parsing).

(** [obj[key]] *)
Definition js_get (obj : jsobject) (key : jsstring) : option jsval :=
  match obj !! key with
  | Some p => Some (Prim p)
  | None => ObjectPrototype key
  end.

(** [obj[key] = p] for a primitive [p]: the [__proto__] setter ignores
    primitives; every other key becomes an own property. *)
Definition js_set (obj : jsobject) (key : jsstring) (p : jsprim) : jsobject :=
  if bool_decide (key = proto_key) then obj else <[key := p]> obj.

(** ** Values that travel in requests and in the data file *)

Inductive json : Type :=
| JNull
| JBool (b : bool)
| JNum (n : Z)
| JStr (s : jsstring)
| JArr (items : list json)
| JObj (fields : list (jsstring * json)).

(** ToBoolean of a possibly [undefined] ([None]) value *)
Definition json_truthy (v : option json) : bool :=
  match v with
  | None | Some JNull => false
  | Some (JBool b) => b
  | Some (JNum n) => negb (n =? 0)
  | Some (JStr s) => negb (bool_decide (s = []))
  | Some (JArr _) | Some (JObj _) => true
  end.

(** [a === b] between a value of the request and a value read from the
    file (or a literal): arrays and objects are then distinct allocations. *)
Definition json_strict_eq (a b : json) : bool :=
  match a, b with
  | JNull, JNull => true
  | JBool x, JBool y => bool_decide (x = y)
  | JNum x, JNum y => bool_decide (x = y)
  | JStr x, JStr y => bool_decide (x = y)
  | _, _ => false
  end.

(** [v.length] of a value that is neither [undefined] nor [null];
    [None] is [undefined].  An object's own property wins by last key. *)
Definition json_length (v : json) : option json :=
  match v with
  | JStr s => Some (JNum (Z.of_nat (length s)))
  | JArr items => Some (JNum (Z.of_nat (length items)))
  | JObj fields => snd <$> last (filter (fun kv => kv.1 = js "length") fields)
  | JNull | JBool _ | JNum _ => None
  end.

(** ** The tokenizer *)

(** [s.split(/\s+/)]: [fragment] is the text since the last separator and
    [in_sep] tells that the previous code unit belonged to a separator. *)
Fixpoint split_ws_from (fragment : jsstring) (in_sep : bool) (s : jsstring)
  : list jsstring :=
  match s with
  | [] => [fragment]
  | c :: s' =>
      if is_ws c then
        if in_sep then split_ws_from [] true s'
        else fragment :: split_ws_from [] true s'
      else split_ws_from (fragment ++ [c]) false s'
  end.

Definition split_ws (s : jsstring) : list jsstring := split_ws_from [] false s.

(** [typeof v === 'string'] *)
Definition is_string (v : option json) : bool :=
  match v with Some (JStr _) => true | _ => false end.

Definition extractWords (text : option json) : list jsstring :=
  if negb (json_truthy text) || negb (is_string text) then []
  else
    match text with
    | Some (JStr s) =>
        filter (fun word => (0 < length word)%nat) (split_ws (trim s))
    | _ => []
    end.

(** ** The word differ *)

(** [words.forEach(word => { count[word] = (count[word] || 0) + 1; })] *)
Definition count_step (count : jsobject) (word : jsstring) : jsobject :=
  js_set count word (js_add (js_or (js_get count word) (Prim (PNum 0))) (Prim (PNum 1))).

Definition count_words (words : list jsstring) : jsobject :=
  foldl count_step ∅ words.

(** [i < d] for a number [i] and the value [d] of a subtraction *)
Definition js_lt_num (i : Z) (d : option Z) : bool :=
  match d with
  | Some n => i <? n
  | None => false
  end.

(** [for (...; i < d; i++) acc.push(word)] from the current [i] on, for at
    most [turns] turns of the loop. *)
Fixpoint for_push (turns : nat) (i : Z) (d : option Z)
    (acc : list jsstring) (word : jsstring) : list jsstring :=
  match turns with
  | O => acc
  | S turns' =>
      if js_lt_num i d then for_push turns' (i + 1) d (acc ++ [word]) word
      else acc
  end.

(** [for (let i = 0; i < d; i++) acc.push(word)]: the loop leaves by its
    test within [d] turns, or at once when [d] is NaN. *)
Definition push_times (acc : list jsstring) (d : option Z) (word : jsstring)
  : list jsstring :=
  for_push (Z.to_nat (default 0 d)) 0 d acc word.

Definition findAddedWords (oldWords newWords : list jsstring) : list jsstring :=
  let oldWordSet : gset (list N) := list_to_set oldWords in
  let oldWordCount := count_words oldWords in
  let newWordCount := count_words newWords in
  fst (foldl
    (fun (st : list jsstring * gset (list N)) word =>
       let '(addedWords, processedWords) := st in
       if bool_decide (word ∈ processedWords) then st
       else
         let oldCount := js_or (js_get oldWordCount word) (Prim (PNum 0)) in
         let newCount := js_or (js_get newWordCount word) (Prim (PNum 0)) in
         ((if js_gt newCount oldCount
           then push_times addedWords (js_sub newCount oldCount) word
           else addedWords),
          {[word]} ∪ processedWords))
    ([], ∅) newWords).

Definition findRemovedWords (oldWords newWords : list jsstring) : list jsstring :=
  let oldWordCount := count_words oldWords in
  let newWordCount := count_words newWords in
  fst (foldl
    (fun (st : list jsstring * gset (list N)) word =>
       let '(removedWords, processedWords) := st in
       if bool_decide (word ∈ processedWords) then st
       else
         let oldCount := js_or (js_get oldWordCount word) (Prim (PNum 0)) in
         let newCount := js_or (js_get newWordCount word) (Prim (PNum 0)) in
         ((if js_gt oldCount newCount
           then push_times removedWords (js_sub oldCount newCount) word
           else removedWords),
          {[word]} ∪ processedWords))
    ([], ∅) oldWords).

(** ** The version record builder *)

(** A valid [Date], by its UTC fields *)
Record Date : Type := {
  year : Z; month : Z; day : Z; hours : Z; minutes : Z; seconds : Z;
  milliseconds : Z
}.

(** The last [width] decimal digits of [n], most significant first *)
Fixpoint pad_digits (width : nat) (n : Z) : jsstring :=
  match width with
  | O => []
  | S w => pad_digits w (n / 10) ++ [Z.to_N (48 + n mod 10)]
  end.

(** [Date.prototype.toISOString]: four-digit years from 0 to 9999, signed
    six-digit years otherwise. *)
Definition toISOString (d : Date) : jsstring :=
  (if (0 <=? year d) && (year d <=? 9999) then pad_digits 4 (year d)
   else (if 0 <=? year d then js "+" else js "-") ++ pad_digits 6 (Z.abs (year d)))
  ++ js "-" ++ pad_digits 2 (month d) ++ js "-" ++ pad_digits 2 (day d)
  ++ js "T" ++ pad_digits 2 (hours d) ++ js ":" ++ pad_digits 2 (minutes d)
  ++ js ":" ++ pad_digits 2 (seconds d) ++ js "." ++ pad_digits 3 (milliseconds d)
  ++ js "Z".

(** [s.slice(0, n)] *)
Definition slice0 (n : nat) (s : jsstring) : jsstring := take n s.

(** [s.replace(c, d)] for one-unit strings: the first occurrence only *)
Fixpoint replace_first (c d : N) (s : jsstring) : jsstring :=
  match s with
  | [] => []
  | x :: s' => if bool_decide (x = c) then d :: s' else x :: replace_first c d s'
  end.

Record VersionEntry : Type := {
  id : jsstring;
  timestamp : jsstring;
  addedWords : list jsstring;
  removedWords : list jsstring;
  oldLength : option json;
  newLength : option json
}.

(** What the surroundings supply while one request is served: the value of
    [new Date()], the value of [uuidv4()], and whether reading or writing
    the data file throws. *)
Record Ambient : Type := {
  now : Date;
  fresh_id : jsstring;
  read_throws : bool;
  write_throws : bool
}.

(** The two texts are neither [undefined] nor [null]: the handler passes
    [data.currentText || ''] and a text it has checked, and on such values
    no step of the builder throws. *)
Definition generateVersionEntry (amb : Ambient) (oldText newText : json)
  : VersionEntry :=
  let oldWords := extractWords (Some oldText) in
  let newWords := extractWords (Some newText) in
  let addedWords := findAddedWords oldWords newWords in
  let removedWords := findRemovedWords oldWords newWords in
  let timestamp := replace_first 84 32 (slice0 16 (toISOString (now amb))) in
  {| id := fresh_id amb;
     timestamp := timestamp;
     addedWords := addedWords;
     removedWords := removedWords;
     oldLength := json_length oldText;
     newLength := json_length newText |}.

(** ** Persistence and the save-version handler *)

Record Data : Type := { versions : list VersionEntry; currentText : json }.

(** The data file: [None] while it does not exist.  Its content is kept as
    the value that [JSON.parse] gives back. *)
Abbreviation Disk := (option Data) (only parsing).

Definition initial_data : Data := {| versions := []; currentText := JStr [] |}.

(** The store a disk state stands for *)
Definition store (d : Disk) : Data := default initial_data d.

(** Computations over the disk that may throw *)
Inductive outcome (A : Type) : Type :=
| Returned (a : A)
| Thrown.
Arguments Returned {A} a.
Arguments Thrown {A}.

Definition IO (A : Type) : Type := Disk -> outcome A * Disk.

Definition io_ret {A} (a : A) : IO A := fun d => (Returned a, d).
Definition io_throw {A} : IO A := fun d => (Thrown, d).
Definition io_bind {A B} (m : IO A) (k : A -> IO B) : IO B :=
  fun d => match m d with
           | (Returned a, d') => k a d'
           | (Thrown, d') => (Thrown, d')
           end.
(** [try { m } catch (error) { return h }] *)
Definition io_catch {A} (m : IO A) (h : A) : Disk -> A * Disk :=
  fun d => match m d with
           | (Returned a, d') => (a, d')
           | (Thrown, d') => (h, d')
           end.

Notation "'do' x <- m ; k" := (io_bind m (fun x => k))
  (at level 10, x binder, m at level 100, k at level 200, only parsing).

Definition ensureDataFile : IO unit :=
  fun d => (Returned tt, match d with None => Some initial_data | Some _ => d end).

Definition readData (amb : Ambient) : IO Data :=
  do _ <- ensureDataFile;
  if read_throws amb then io_throw else fun d => (Returned (store d), d).

Definition writeData (amb : Ambient) (data : Data) : IO unit :=
  do _ <- ensureDataFile;
  if write_throws amb then io_throw else fun _ => (Returned tt, Some data).

Inductive Response : Type :=
| TextRequired                       (* 400, error: 'Text content is required' *)
| NoChanges                          (* 200, changed: false *)
| VersionSaved (version : VersionEntry)  (* 201, changed: true *)
| VersionList (versions : list VersionEntry) (currentText : json)  (* 200 *)
| InternalServerError.               (* 500, error: 'Internal server error' *)


(** [app.post('/save-version', ...)]; [text] is [req.body.text], [None]
    when the body has no such field. *)
Definition save_version (amb : Ambient) (text : option json)
  : Disk -> Response * Disk :=
  io_catch
    (match text with
     | None | Some JNull => io_ret TextRequired
     | Some text =>
         do data <- readData amb;
         let oldText :=
           if json_truthy (Some (currentText data)) then currentText data
           else JStr [] in
         if json_strict_eq text oldText then io_ret NoChanges
         else
           let versionEntry := generateVersionEntry amb oldText text in
           let data' := {| versions := versionEntry :: versions data;
                           currentText := text |} in
           do _ <- writeData amb data';
           io_ret (VersionSaved versionEntry)
     end)
    InternalServerError.

(** [app.get('/versions', ...)] *)
Definition get_versions (amb : Ambient) : Disk -> Response * Disk :=
  io_catch
    (do data <- readData amb;
     io_ret (VersionList (versions data) (currentText data)))
    InternalServerError.

(** ** What the differ is meant to compute *)

(** Number of occurrences of [w] in [l] *)
Fixpoint occ (w : jsstring) (l : list jsstring) : nat :=
  match l with
  | [] => 0%nat
  | x :: l' => ((if bool_decide (x = w) then 1 else 0) + occ w l')%nat
  end.

(** The distinct words of [l] not yet in [seen], by first appearance *)
Fixpoint first_appearances (seen : gset (list N)) (l : list jsstring)
  : list jsstring :=
  match l with
  | [] => []
  | w :: l' =>
      if bool_decide (w ∈ seen) then first_appearances seen l'
      else w :: first_appearances ({[w]} ∪ seen) l'
  end.

Definition distinct_words (l : list jsstring) : list jsstring :=
  first_appearances ∅ l.

(** The multiset difference the specification describes: every distinct
    word of [new], in order of first appearance, once per unit by which its
    count in [new] exceeds its count in [old]. *)
Definition spec_added (old new : list jsstring) : list jsstring :=
  flat_map (fun w => replicate (occ w new - occ w old)%nat w) (distinct_words new).

Definition spec_removed (old new : list jsstring) : list jsstring :=
  flat_map (fun w => replicate (occ w old - occ w new)%nat w) (distinct_words old).

(** Whether a word names a property inherited from [Object.prototype] *)
Definition inherited (w : jsstring) : bool :=
  match ObjectPrototype w with Some _ => true | None => false end.

(** What the code computes: as above, except that inherited names never
    yield anything. *)
Definition emitted (old new : list jsstring) (w : jsstring) : list jsstring :=
  if inherited w then [] else replicate (occ w new - occ w old)%nat w.


(** A value that is, or converts to, a string opening with something other
    than white space, a sign or a digit: no number can be read from it. *)
Definition wordy (s : jsstring) : bool :=
  match s with
  | c :: _ => negb (is_ws c) && negb (is_digit c)
              && negb (c =? 43)%N && negb (c =? 45)%N
  | [] => false
  end.

Definition textual (v : jsval) : Prop :=
  exists s, ToPrimitive v = PStr s /\ wordy s = true.

(** ** What the tokenizer is meant to compute *)

(** The maximal runs of non-white-space code units of [s], left to right;
    [run] is the run being read. *)
Fixpoint maximal_runs_from (run : jsstring) (s : jsstring) : list jsstring :=
  match s with
  | [] => match run with [] => [] | _ => [run] end
  | c :: s' =>
      if is_ws c then
        match run with
        | [] => maximal_runs_from [] s'
        | _ => run :: maximal_runs_from [] s'
        end
      else maximal_runs_from (run ++ [c]) s'
  end.

Definition maximal_runs (s : jsstring) : list jsstring := maximal_runs_from [] s.

(** The text the handler compares a submission with: [data.currentText || ''] *)
Definition old_text (data : Data) : json :=
  if json_truthy (Some (currentText data)) then currentText data else JStr [].

(** ** Sample surroundings and stores *)

Definition noon : Date :=
  {| year := 2025; month := 3; day := 9; hours := 12; minutes := 5;
     seconds := 59; milliseconds := 999 |}.

Definition calm : Ambient :=
  {| now := noon; fresh_id := js "3f2b8c1e-0000-4000-8000-000000000001";
     read_throws := false; write_throws := false |}.

Definition noon_sharp : Ambient :=
  {| now := {| year := 2025; month := 3; day := 9; hours := 12; minutes := 5;
               seconds := 0; milliseconds := 0 |};
     fresh_id := js "3f2b8c1e-0000-4000-8000-000000000002";
     read_throws := false; write_throws := false |}.

Definition spaced_store : option Data :=
  Some {| versions := []; currentText := JStr (js "hello  world") |}.

(** ** Dates of the calendar *)

(** The fields that [toISOString] prints up to the minute, in the ranges a
    date between the years 0 and 9999 has them. *)
Definition in_calendar (d : Date) : Prop :=
  0 <= year d <= 9999 /\ 1 <= month d <= 12 /\ 1 <= day d <= 31
  /\ 0 <= hours d <= 23 /\ 0 <= minutes d <= 59.

Definition same_minute (a b : Date) : Prop :=
  year a = year b /\ month a = month b /\ day a = day b
  /\ hours a = hours b /\ minutes a = minutes b.

(** ** The JSON body parser in front of the handlers *)








(** ** Requests served one after the other *)

(** The server handles one request at a time; [serve] answers a sequence
    of save-version requests, each with its own surroundings, and returns
    the answers in order with the final state of the data file. *)
Fixpoint serve (requests : list (Ambient * option json)) (disk : Disk)
  : list Response * Disk :=
  match requests with
  | [] => ([], disk)
  | (amb, text) :: requests' =>
      let '(response, disk') := save_version amb text disk in
      let '(responses, disk'') := serve requests' disk' in
      (response :: responses, disk'')
  end.

(** The records that a sequence of answers reports as created, oldest first *)
Fixpoint created (responses : list Response) : list VersionEntry :=
  match responses with
  | [] => []
  | VersionSaved version :: responses' => version :: created responses'
  | _ :: responses' => created responses'
  end.

Definition stored_versions (disk : Disk) : list VersionEntry := versions (store disk).
Definition stored_text (disk : Disk) : json := currentText (store disk).

(** Each record starts from the length the record before it ended with,
    the oldest one from length 0, and the newest one ends with [len]. *)
Fixpoint chained (len : Z) (history : list VersionEntry) : Prop :=
  match history with
  | [] => len = 0
  | version :: history' =>
      newLength version = Some (JNum len)
      /\ exists len', oldLength version = Some (JNum len') /\ chained len' history'
  end.

(** ** The editor page *)

Module App.

(** The state kept by the [useState] hooks *)
Record State : Type := {
  text : json;
  versions : list VersionEntry;
  isLoading : bool;
  statusMessage : jsstring
}.

(** What [await fetch(...)] followed by [await response.json()] gives:
    a rejection, or the object the server answered with. *)
Inductive fetched : Type :=
| NetworkError
| Reply (data : Response).

(** ToBoolean of [data.changed] *)
Definition data_changed (data : Response) : bool :=
  match data with
  | VersionSaved _ => true
  | _ => false
  end.

(** [data.versions] and [data.currentText]; [None] is [undefined] *)
Definition data_versions (data : Response) : option (list VersionEntry) :=
  match data with
  | VersionList vs _ => Some vs
  | _ => None
  end.

Definition data_currentText (data : Response) : option json :=
  match data with
  | VersionList _ c => Some c
  | _ => None
  end.

Definition fetchVersions (reply : fetched) (st : State) : State :=
  match reply with
  | Reply data =>
      {| text := if json_truthy (data_currentText data)
                 then default (JStr []) (data_currentText data) else JStr [];
         versions := default [] (data_versions data);
         isLoading := isLoading st;
         statusMessage := statusMessage st |}
  | NetworkError =>
      {| text := text st; versions := versions st; isLoading := isLoading st;
         statusMessage :=
           js "Error loading data. Make sure the backend is running." |}
  end.

(** [handleSaveVersion]; [saved] answers the POST and [listed] the GET
    that follows a change. *)
Definition handleSaveVersion (saved listed : fetched) (st : State) : State :=
  let st := {| text := text st; versions := versions st; isLoading := true;
               statusMessage := [] |} in
  let st :=
    match saved with
    | Reply data =>
        if data_changed data then
          fetchVersions listed
            {| text := text st; versions := versions st; isLoading := isLoading st;
               statusMessage := js "Version saved successfully!" |}
        else
          {| text := text st; versions := versions st; isLoading := isLoading st;
             statusMessage := js "No changes detected." |}
    | NetworkError =>
        {| text := text st; versions := versions st; isLoading := isLoading st;
           statusMessage := js "Error saving version. Please try again." |}
    end in
  {| text := text st; versions := versions st; isLoading := false;
     statusMessage := statusMessage st |}.

(** [s.includes(sub)] *)
Fixpoint starts_with (sub s : jsstring) : bool :=
  match sub, s with
  | [], _ => true
  | _ :: _, [] => false
  | a :: sub', b :: s' => (a =? b)%N && starts_with sub' s'
  end.

Fixpoint includes (s sub : jsstring) : bool :=
  starts_with sub s
  || match s with
     | [] => false
     | _ :: s' => includes s' sub
     end.

(** The class of the status line *)
Definition status_class (st : State) : jsstring :=
  if includes (statusMessage st) (js "Error") then js "error" else js "success".

(** The "Words:" figure under the editor, for a string in the editor *)
Definition word_count (text : jsstring) : nat :=
  if negb (bool_decide (trim text = [])) then length (split_ws (trim text))
  else 0%nat.

(** [Version #{versions.length - index}] *)
Definition version_number (versions : list VersionEntry) (index : nat) : Z :=
  Z.of_nat (length versions) - Z.of_nat index.

(** The three blocks of a version item *)
Definition shows_added (version : VersionEntry) : bool :=
  bool_decide (0 < length (addedWords version))%nat.
Definition shows_removed (version : VersionEntry) : bool :=
  bool_decide (0 < length (removedWords version))%nat.
Definition shows_whitespace_note (version : VersionEntry) : bool :=
  bool_decide (length (addedWords version) = 0%nat)
  && bool_decide (length (removedWords version) = 0%nat).

End App.




(** * Properties *)

(** ** Counting objects *)

Lemma count_words_snoc l x :
  count_words (l ++ [x]) = count_step (count_words l) x.
Proof. unfold count_words. by rewrite foldl_app. Qed.

Lemma occ_app w l1 l2 : occ w (l1 ++ l2) = (occ w l1 + occ w l2)%nat.
Proof. induction l1 as [|x l1 IH]; simpl; [done | rewrite IH; lia]. Qed.

Lemma ObjectPrototype_proto_key : ObjectPrototype proto_key <> None.
Proof. unfold ObjectPrototype. by rewrite bool_decide_eq_true_2. Qed.

Lemma count_step_lookup_ne m x w :
  x <> w -> count_step m x !! w = m !! w.
Proof.
  intros Hne. unfold count_step, js_set. case_bool_decide; [done|].
  by rewrite lookup_insert_ne.
Qed.

Lemma count_step_lookup_eq m w :
  w <> proto_key ->
  count_step m w !! w
  = Some (js_add (js_or (js_get m w) (Prim (PNum 0))) (Prim (PNum 1))).
Proof.
  intros Hne. unfold count_step, js_set. rewrite bool_decide_eq_false_2 by done.
  by rewrite lookup_insert_eq.
Qed.

(** A word that [Object.prototype] does not know is counted by a number. *)
Lemma counted_plain w l :
  ObjectPrototype w = None ->
  js_or (js_get (count_words l) w) (Prim (PNum 0)) = Prim (PNum (Z.of_nat (occ w l))).
Proof.
  intros Hw. induction l as [|x l IH] using rev_ind.
  - unfold count_words, js_get. simpl. rewrite lookup_empty, Hw. done.
  - rewrite count_words_snoc, occ_app. simpl.
    destruct (decide (x = w)) as [->|Hne].
    + rewrite bool_decide_eq_true_2 by done.
      unfold js_get at 1. rewrite count_step_lookup_eq.
      2:{ intros ->. by apply ObjectPrototype_proto_key. }
      rewrite IH. simpl.
      destruct (Z.eqb_spec (Z.of_nat (occ w l) + 1) 0) as [?|_]; [lia|].
      unfold js_add. simpl. do 2 f_equal. lia.
    + rewrite bool_decide_eq_false_2 by done.
      unfold js_get at 1. rewrite count_step_lookup_ne by done.
      fold (js_get (count_words l) w). rewrite IH. do 2 f_equal. lia.
Qed.

(** ** Strings from which no number can be read *)

Lemma drop_ws_keeps_last r c :
  is_ws c = false -> exists r', drop_ws (r ++ [c]) = r' ++ [c].
Proof.
  intros Hc. induction r as [|a r IH]; simpl.
  - rewrite Hc. by exists [].
  - destruct (is_ws a); [done|]. by exists (a :: r).
Qed.

Lemma trim_keeps_head c s :
  is_ws c = false -> exists t, trim (c :: s) = c :: t.
Proof.
  intros Hc. unfold trim. simpl. rewrite Hc. simpl.
  destruct (drop_ws_keeps_last (rev s) c Hc) as [r' ->].
  exists (rev r'). by rewrite rev_unit.
Qed.

Lemma wordy_NaN s : wordy s = true -> StringToNumber s = None.
Proof.
  destruct s as [|c s]; [done|]. simpl. intros H.
  apply andb_prop in H as [H H45]. apply andb_prop in H as [H H43].
  apply andb_prop in H as [Hws Hdg].
  apply negb_true_iff in H45, H43, Hws, Hdg.
  destruct (trim_keeps_head c s Hws) as [t Ht].
  unfold StringToNumber. rewrite Ht, H43, H45. simpl. by rewrite Hdg.
Qed.

Lemma wordy_app s t : wordy s = true -> wordy (s ++ t) = true.
Proof. by destruct s. Qed.

Lemma textual_sub_l a b : textual a -> js_sub a b = None.
Proof.
  intros (s & Hs & Hw). unfold js_sub. rewrite Hs. simpl.
  by rewrite (wordy_NaN s Hw).
Qed.

Lemma textual_truthy v : textual v -> js_truthy v = true.
Proof.
  intros (s & Hs & Hw). destruct v as [[n|s']|src]; simpl in *; [done| |done].
  inversion Hs; subst. by destruct s.
Qed.

Lemma lookup_function_textual tbl w v :
  Forall (fun kf => wordy (native_function_source kf.2) = true) tbl ->
  lookup_function tbl w = Some v -> textual v.
Proof.
  induction 1 as [|[k f] tbl Hkf _ IH]; simpl; [done|].
  case_bool_decide; [|done]. intros [= <-]. by eexists.
Qed.

(** Whatever an object literal inherits is a built-in object whose string
    form opens with a letter or a bracket. *)
Lemma ObjectPrototype_textual w v : ObjectPrototype w = Some v -> textual v.
Proof.
  unfold ObjectPrototype. case_bool_decide.
  - intros [= <-]. by eexists.
  - apply lookup_function_textual.
    unfold object_prototype_functions. repeat constructor.
Qed.

(** A word that names an inherited property is never counted by a number. *)
Lemma counted_inherited w l :
  ObjectPrototype w <> None ->
  textual (js_or (js_get (count_words l) w) (Prim (PNum 0))).
Proof.
  intros Hw. induction l as [|x l IH] using rev_ind.
  - unfold count_words, js_get. simpl. rewrite lookup_empty.
    destruct (ObjectPrototype w) as [v|] eqn:Hv; [|done].
    pose proof (ObjectPrototype_textual w v Hv) as Ht.
    simpl. by rewrite (textual_truthy v Ht).
  - rewrite count_words_snoc.
    destruct (decide (x = w)) as [->|Hne].
    + destruct (decide (w = proto_key)) as [Hp|Hp].
      * unfold count_step, js_set. by rewrite bool_decide_eq_true_2.
      * unfold js_get at 1. rewrite count_step_lookup_eq by done.
        destruct IH as (s & Hs & Hws).
        assert (js_add (js_or (js_get (count_words l) w) (Prim (PNum 0)))
                  (Prim (PNum 1)) = PStr (s ++ Z_to_jsstring 1)) as ->.
        { unfold js_add. by rewrite Hs. }
        assert (wordy (s ++ Z_to_jsstring 1) = true) as Hw' by by apply wordy_app.
        exists (s ++ Z_to_jsstring 1). split; [|done].
        simpl. destruct (s ++ Z_to_jsstring 1); [done|].
        by rewrite bool_decide_eq_false_2.
    + unfold js_get at 1. by rewrite count_step_lookup_ne.
Qed.

(** ** The push loop *)

Lemma for_push_number turns i n (acc : list (list N)) word :
  (Z.to_nat (n - i) <= turns)%nat ->
  for_push turns i (Some n) acc word = acc ++ replicate (Z.to_nat (n - i)) word.
Proof.
  revert i acc. induction turns as [|turns IH]; intros i acc Hturns; simpl.
  - replace (Z.to_nat (n - i)) with 0%nat by lia. by rewrite app_nil_r.
  - destruct (Z.ltb_spec i n) as [Hlt|Hge].
    + rewrite IH by lia. rewrite <- app_assoc. f_equal.
      replace (Z.to_nat (n - i)) with (S (Z.to_nat (n - (i + 1)))) by lia. done.
    + replace (Z.to_nat (n - i)) with 0%nat by lia. by rewrite app_nil_r.
Qed.

(** The loop runs to its end within the turns it is given. *)
Lemma push_times_closed (acc : list (list N)) d word :
  push_times acc d word
  = acc ++ replicate (match d with Some n => Z.to_nat n | None => 0%nat end) word.
Proof.
  unfold push_times. destruct d as [n|]; simpl.
  - rewrite for_push_number by lia. by rewrite Z.sub_0_r.
  - by rewrite app_nil_r.
Qed.

(** ** The two passes of the differ *)

(** One pass: every word not seen before contributes [emit word]. *)
Lemma pass_first_appearances
    (step : list (list N) * gset (list N) -> list N -> list (list N) * gset (list N))
    (emit : list N -> list (list N)) :
  (forall acc seen w, w ∈ seen -> step (acc, seen) w = (acc, seen)) ->
  (forall acc seen w, w ∉ seen -> step (acc, seen) w = (acc ++ emit w, {[w]} ∪ seen)) ->
  forall l acc seen,
    fst (foldl step (acc, seen) l) = acc ++ flat_map emit (first_appearances seen l).
Proof.
  intros Hin Hout l. induction l as [|w l IH]; intros acc seen; simpl.
  - by rewrite app_nil_r.
  - case_bool_decide.
    + by rewrite Hin, IH.
    + rewrite Hout, IH by done. simpl. by rewrite <- app_assoc.
Qed.

(** What one unseen word contributes, whichever list it is pushed on. *)
Lemma contribution (acc : list (list N)) a b w :
  (if js_gt (js_or (js_get (count_words a) w) (Prim (PNum 0)))
            (js_or (js_get (count_words b) w) (Prim (PNum 0)))
   then push_times acc
          (js_sub (js_or (js_get (count_words a) w) (Prim (PNum 0)))
                  (js_or (js_get (count_words b) w) (Prim (PNum 0)))) w
   else acc)
  = acc ++ emitted b a w.
Proof.
  unfold emitted, inherited.
  destruct (ObjectPrototype w) as [v|] eqn:Hw.
  - rewrite push_times_closed.
    rewrite textual_sub_l by (apply counted_inherited; congruence).
    simpl. rewrite app_nil_r. by destruct (js_gt _ _).
  - rewrite push_times_closed.
    rewrite !counted_plain by done. unfold js_gt, js_sub. simpl.
    destruct (Z.ltb_spec (Z.of_nat (occ w b)) (Z.of_nat (occ w a))) as [Hlt|Hge].
    + do 2 f_equal. lia.
    + replace (occ w a - occ w b)%nat with 0%nat by lia.
      simpl. by rewrite app_nil_r.
Qed.

(** The added list, in closed form. *)
Lemma findAddedWords_emitted old new :
  findAddedWords old new = flat_map (emitted old new) (distinct_words new).
Proof.
  unfold findAddedWords, distinct_words.
  rewrite (pass_first_appearances _ (emitted old new)); [done| |].
  - intros acc seen w Hw. by rewrite bool_decide_eq_true_2.
  - intros acc seen w Hw. rewrite bool_decide_eq_false_2 by done.
    by rewrite contribution.
Qed.

(** The removed list, in closed form. *)
Lemma findRemovedWords_emitted old new :
  findRemovedWords old new = flat_map (emitted new old) (distinct_words old).
Proof.
  unfold findRemovedWords, distinct_words.
  rewrite (pass_first_appearances _ (emitted new old)); [done| |].
  - intros acc seen w Hw. by rewrite bool_decide_eq_true_2.
  - intros acc seen w Hw. rewrite bool_decide_eq_false_2 by done.
    by rewrite contribution.
Qed.

(** ** First appearances *)

Lemma elem_of_first_appearances seen l w :
  w ∈ first_appearances seen l <-> w ∈ l /\ w ∉ seen.
Proof.
  revert seen. induction l as [|x l IH]; intros seen; simpl.
  - set_solver.
  - case_bool_decide.
    + rewrite IH. set_solver.
    + rewrite elem_of_cons, IH. destruct (decide (w = x)); set_solver.
Qed.

Lemma NoDup_first_appearances seen l : NoDup (first_appearances seen l).
Proof.
  revert seen. induction l as [|x l IH]; intros seen; simpl.
  - constructor.
  - case_bool_decide; [done|]. constructor; [|done].
    rewrite elem_of_first_appearances. set_solver.
Qed.

Lemma elem_of_distinct_words l w : w ∈ distinct_words l <-> w ∈ l.
Proof. unfold distinct_words. rewrite elem_of_first_appearances. set_solver. Qed.

Lemma occ_pos w l : (0 < occ w l)%nat <-> w ∈ l.
Proof.
  induction l as [|x l IH]; simpl.
  - split; [lia | by intros ?%elem_of_nil].
  - rewrite elem_of_cons, <- IH. case_bool_decide; split; try lia; naive_solver lia.
Qed.

(** ** Elements of the two lists *)

Lemma elem_of_emitted a b x w :
  w ∈ emitted a b x <-> w = x /\ inherited w = false /\ (occ w a < occ w b)%nat.
Proof.
  unfold emitted. destruct (inherited x) eqn:Hx.
  - split; [by intros ?%elem_of_nil | intros (-> & ? & _); congruence].
  - rewrite elem_of_replicate. split.
    + intros [-> ?]. repeat split; [done | lia].
    + intros (-> & _ & ?). split; [done | lia].
Qed.

Lemma elem_of_flat_map_emitted a b l w :
  w ∈ flat_map (emitted a b) l
  <-> w ∈ l /\ inherited w = false /\ (occ w a < occ w b)%nat.
Proof.
  rewrite list_elem_of_In, in_flat_map. split.
  - intros (x & Hx & Hw). apply list_elem_of_In in Hx, Hw.
    apply elem_of_emitted in Hw as (-> & ? & ?). done.
  - intros (Hl & ? & ?). exists w. rewrite <- !list_elem_of_In.
    split; [done|]. by apply elem_of_emitted.
Qed.

Lemma elem_of_findAddedWords old new w :
  w ∈ findAddedWords old new <-> inherited w = false /\ (occ w old < occ w new)%nat.
Proof.
  rewrite findAddedWords_emitted, elem_of_flat_map_emitted, elem_of_distinct_words.
  rewrite <- occ_pos. split; [tauto | intros [? ?]; repeat split; [lia | done..]].
Qed.

Lemma elem_of_findRemovedWords old new w :
  w ∈ findRemovedWords old new <-> inherited w = false /\ (occ w new < occ w old)%nat.
Proof.
  rewrite findRemovedWords_emitted, elem_of_flat_map_emitted, elem_of_distinct_words.
  rewrite <- occ_pos. split; [tauto | intros [? ?]; repeat split; [lia | done..]].
Qed.

Lemma flat_map_emitted_self a l : flat_map (emitted a a) l = [].
Proof.
  induction l as [|w l IH]; simpl; [done|]. rewrite IH, app_nil_r.
  unfold emitted. destruct (inherited w); [done|]. by rewrite Nat.sub_diag.
Qed.

Lemma findAddedWords_same a : findAddedWords a a = [].
Proof. rewrite findAddedWords_emitted. apply flat_map_emitted_self. Qed.

Lemma findRemovedWords_same a : findRemovedWords a a = [].
Proof. rewrite findRemovedWords_emitted. apply flat_map_emitted_self. Qed.

(** On sequences free of inherited names the code computes the multiset
    difference of the specification. *)
Lemma flat_map_emitted_plain a b l :
  Forall (fun w => inherited w = false) l ->
  flat_map (emitted a b) l = flat_map (fun w => replicate (occ w b - occ w a)%nat w) l.
Proof.
  induction 1 as [|w l Hw _ IH]; simpl; [done|].
  rewrite IH. unfold emitted. by rewrite Hw.
Qed.

Lemma Forall_first_appearances (P : list N -> Prop) seen l :
  Forall P l -> Forall P (first_appearances seen l).
Proof.
  rewrite !Forall_forall. intros H w Hw.
  apply elem_of_first_appearances in Hw as [Hw _]. by apply H.
Qed.

Lemma findAddedWords_plain old new :
  Forall (fun w => inherited w = false) new ->
  findAddedWords old new = spec_added old new.
Proof.
  intros H. rewrite findAddedWords_emitted. unfold spec_added.
  apply flat_map_emitted_plain. by apply Forall_first_appearances.
Qed.

Lemma findRemovedWords_plain old new :
  Forall (fun w => inherited w = false) old ->
  findRemovedWords old new = spec_removed old new.
Proof.
  intros H. rewrite findRemovedWords_emitted. unfold spec_removed.
  apply flat_map_emitted_plain. by apply Forall_first_appearances.
Qed.

Lemma nil_iff_no_elem (l : list (list N)) : l = [] <-> forall w, w ∉ l.
Proof.
  split; [intros -> w; apply not_elem_of_nil|].
  destruct l as [|x l]; [done|]. intros H. destruct (H x). left.
Qed.

(** Both lists are empty exactly when the two sequences agree on the
    count of every word that is not an inherited name. *)
Lemma differ_empty_iff a b :
  findAddedWords a b = [] /\ findRemovedWords a b = []
  <-> forall w, inherited w = false -> occ w a = occ w b.
Proof.
  rewrite !nil_iff_no_elem. split.
  - intros [Ha Hr] w Hw. specialize (Ha w). specialize (Hr w).
    rewrite elem_of_findAddedWords in Ha. rewrite elem_of_findRemovedWords in Hr.
    destruct (Nat.lt_trichotomy (occ w a) (occ w b)) as [?|[?|?]]; [|done|]; tauto.
  - intros H. split; intros w.
    + rewrite elem_of_findAddedWords. intros [Hw ?]. specialize (H w Hw). lia.
    + rewrite elem_of_findRemovedWords. intros [Hw ?]. specialize (H w Hw). lia.
Qed.

(** ** The differ: stated properties *)

Example added_multiplicity : findAddedWords [js "a"] [js "a"; js "a"] = [js "a"].
Proof. vm_compute. reflexivity. Qed.

Example removed_multiplicity : findRemovedWords [js "a"; js "a"] [js "a"] = [js "a"].
Proof. vm_compute. reflexivity. Qed.

Example end_to_end_scenario :
  let oldWords := extractWords (Some (JStr (js "the cat sat"))) in
  let newWords := extractWords (Some (JStr (js "the dog sat sat"))) in
  findAddedWords oldWords newWords = [js "dog"; js "sat"]
  /\ findRemovedWords oldWords newWords = [js "cat"].
Proof. vm_compute. split; reflexivity. Qed.

(** C1, at the input where the code departs from it: the word
    [constructor] is new and occurs once more in the new sequence than in
    the old one, so the claim wants it added once; the counting object
    inherits a property of that name, the counts become strings, the
    subtraction yields NaN and nothing is pushed.  The two multiplicity
    examples of the claim do hold. *)
Theorem findAddedWords_loses_inherited_name :
  findAddedWords [] [js "constructor"] = []
  /\ spec_added [] [js "constructor"] = [js "constructor"]
  /\ findAddedWords [js "a"] [js "a"; js "a"] = [js "a"]
  /\ findRemovedWords [js "a"; js "a"] [js "a"] = [js "a"].
Proof. vm_compute. repeat split; reflexivity. Qed.

(** C3, at the input where the code departs from it: the empty sequence
    and the one-word sequence [constructor] differ as multisets, yet the
    added list and the removed list are both empty. *)
Theorem differ_empty_on_different_multisets :
  findAddedWords [] [js "constructor"] = []
  /\ findRemovedWords [] [js "constructor"] = []
  /\ occ (js "constructor") [] <> occ (js "constructor") [js "constructor"].
Proof. vm_compute. repeat split; [reflexivity..|discriminate]. Qed.

(** C4: the added list of diffing [A] against [B] is the removed list of
    diffing [B] against [A], and the removed list of diffing [A] against
    [B] is the added list of diffing [B] against [A]. *)
Theorem differ_symmetry (A B : list (list N)) :
  findAddedWords A B = findRemovedWords B A
  /\ findRemovedWords A B = findAddedWords B A.
Proof. split; reflexivity. Qed.

(** C5: diffing a word sequence against itself yields an empty added list
    and an empty removed list. *)
Theorem differ_self (A : list (list N)) :
  findAddedWords A A = [] /\ findRemovedWords A A = [].
Proof. split; [apply findAddedWords_same | apply findRemovedWords_same]. Qed.

(** C10: a word is in the added list only if the new sequence has strictly
    more occurrences of it than the old one, in the removed list only if it
    has strictly fewer, and so no word is in both lists. *)
Theorem added_removed_disjoint (oldWords newWords : list (list N)) (w : list N) :
  (w ∈ findAddedWords oldWords newWords -> (occ w oldWords < occ w newWords)%nat)
  /\ (w ∈ findRemovedWords oldWords newWords -> (occ w newWords < occ w oldWords)%nat)
  /\ ~ (w ∈ findAddedWords oldWords newWords /\ w ∈ findRemovedWords oldWords newWords).
Proof.
  rewrite elem_of_findAddedWords, elem_of_findRemovedWords.
  repeat split; [tauto..|]. intros [[_ ?] [_ ?]]. lia.
Qed.

Lemma added_removed_disjoint_witness :
  js "dog" ∈ findAddedWords [js "the"; js "cat"] [js "the"; js "dog"]
  /\ (occ (js "dog") [js "the"; js "cat"] < occ (js "dog") [js "the"; js "dog"])%nat
  /\ js "dog" ∉ findRemovedWords [js "the"; js "cat"] [js "the"; js "dog"].
Proof.
  assert (js "dog" ∈ findAddedWords [js "the"; js "cat"] [js "the"; js "dog"]) as Hin.
  { vm_compute. apply list_elem_of_here. }
  destruct (added_removed_disjoint [js "the"; js "cat"] [js "the"; js "dog"] (js "dog"))
    as (Hadd & _ & Hdis).
  split; [exact Hin|]. split; [exact (Hadd Hin)|].
  intros Hrem. exact (Hdis (conj Hin Hrem)).
Defined.

(** ** The tokenizer *)

Lemma filter_split_ws_from fragment in_sep s :
  (in_sep = true -> fragment = []) ->
  filter (fun word : list N => (0 < length word)%nat) (split_ws_from fragment in_sep s)
  = maximal_runs_from fragment s.
Proof.
  revert fragment in_sep. induction s as [|c s IH]; intros fragment in_sep Hsep; simpl.
  - destruct fragment; [done|]. rewrite filter_cons_True by (simpl; lia). done.
  - destruct (is_ws c).
    + destruct in_sep.
      * rewrite Hsep by done. by apply IH.
      * destruct fragment as [|a fragment].
        -- rewrite filter_cons_False by (simpl; lia). by apply IH.
        -- rewrite filter_cons_True by (simpl; lia). f_equal. by apply IH.
    + by apply IH.
Qed.

Lemma maximal_runs_drop_ws s :
  maximal_runs_from [] (drop_ws s) = maximal_runs_from [] s.
Proof.
  induction s as [|c s IH]; simpl; [done|].
  destruct (is_ws c) eqn:Hc; [done|]. simpl. by rewrite Hc.
Qed.

Lemma drop_ws_split r :
  exists w, Forall (fun c => is_ws c = true) w /\ r = w ++ drop_ws r.
Proof.
  induction r as [|c r (w & Hw & IH)]; simpl.
  - by exists [].
  - destruct (is_ws c) eqn:Hc.
    + exists (c :: w). split; [by constructor|]. simpl. by f_equal.
    + by exists [].
Qed.

Lemma maximal_runs_from_ws run w :
  Forall (fun c => is_ws c = true) w ->
  maximal_runs_from run w = match run with [] => [] | _ => [run] end.
Proof.
  intros Hw. revert run. induction Hw as [|c w Hc _ IH]; intros run; simpl; [done|].
  rewrite Hc. rewrite IH. by destruct run.
Qed.

Lemma maximal_runs_from_app_ws run t w :
  Forall (fun c => is_ws c = true) w ->
  maximal_runs_from run (t ++ w) = maximal_runs_from run t.
Proof.
  intros Hw. revert run. induction t as [|c t IH]; intros run; simpl.
  - by apply maximal_runs_from_ws.
  - rewrite !IH. done.
Qed.

Lemma maximal_runs_trim s : maximal_runs (trim s) = maximal_runs s.
Proof.
  unfold maximal_runs, trim.
  rewrite <- (maximal_runs_drop_ws s).
  destruct (drop_ws_split (rev (drop_ws s))) as (w & Hw & Hsplit).
  assert (drop_ws s = rev (drop_ws (rev (drop_ws s))) ++ rev w) as Hs.
  { rewrite <- rev_app_distr, <- Hsplit. by rewrite rev_involutive. }
  rewrite Hs at 2. rewrite maximal_runs_from_app_ws; [done|].
  apply Forall_forall. intros c Hc. rewrite list_elem_of_In, <- in_rev in Hc.
  rewrite Forall_forall in Hw. apply Hw. by apply list_elem_of_In.
Qed.

Lemma extractWords_string s : extractWords (Some (JStr s)) = maximal_runs s.
Proof.
  unfold extractWords. simpl. case_bool_decide as Hs; simpl; [by subst|].
  unfold split_ws. rewrite filter_split_ws_from by done.
  apply maximal_runs_trim.
Qed.

(** Every word is a non-empty run free of white space, and the words, put
    end to end, are the code units of the text that are not white space. *)
Lemma maximal_runs_from_concat run s :
  concat (maximal_runs_from run s) = run ++ filter (fun c => is_ws c = false) s.
Proof.
  revert run. induction s as [|c s IH]; intros run; simpl.
  - destruct run; simpl; by rewrite ?app_nil_r.
  - destruct (is_ws c) eqn:Hc.
    + rewrite filter_cons_False by congruence.
      destruct run; simpl; rewrite IH; done.
    + rewrite filter_cons_True by done. rewrite IH, <- app_assoc. done.
Qed.

Lemma maximal_runs_from_words run s :
  Forall (fun c => is_ws c = false) run ->
  Forall (fun word => word <> [] /\ Forall (fun c => is_ws c = false) word)
         (maximal_runs_from run s).
Proof.
  revert run. induction s as [|c s IH]; intros run Hrun; simpl.
  - destruct run as [|a run]; [constructor|].
    constructor; [by split | constructor].
  - destruct (is_ws c) eqn:Hc.
    + destruct run; [by apply IH|]. constructor; [done|]. by apply IH.
    + apply IH. apply Forall_app. by repeat constructor.
Qed.

(** C6: whatever it is given, the tokenizer returns a word sequence and
    never fails; on a string it returns the maximal runs of non-white-space
    code units in order (what trimming, splitting on white-space runs and
    dropping empty fragments leaves), each word non-empty and free of white
    space, the words together being the non-white-space code units of the
    text unchanged; on an absent, null or non-string input it returns the
    empty sequence. *)
Theorem extractWords_tokenizes :
  (forall text : option json,
     extractWords text
     = match text with Some (JStr s) => maximal_runs s | _ => [] end)
  /\ (forall s : list N,
        extractWords (Some (JStr s))
        = filter (fun word : list N => (0 < length word)%nat) (split_ws (trim s)))
  /\ (forall s : list N,
        concat (extractWords (Some (JStr s))) = filter (fun c => is_ws c = false) s)
  /\ (forall s : list N,
        Forall (fun word => word <> [] /\ Forall (fun c => is_ws c = false) word)
               (extractWords (Some (JStr s)))).
Proof.
  repeat split.
  - intros [[|b|n|s|items|fields]|]; try apply extractWords_string;
      unfold extractWords; simpl; by rewrite ?orb_true_r.
  - intros s. unfold extractWords. simpl. case_bool_decide; simpl; [by subst|done].
  - intros s. rewrite extractWords_string. apply maximal_runs_from_concat.
  - intros s. rewrite extractWords_string. by apply maximal_runs_from_words.
Qed.

(** ** The version record builder *)

Lemma digit_unit_ne n c : (c < 48 \/ 57 < c)%N -> Z.to_N (48 + n mod 10) <> c.
Proof. intros Hc. pose proof (Z.mod_pos_bound n 10). lia. Qed.

Lemma replace_first_skip c d x s :
  x <> c -> replace_first c d (x :: s) = x :: replace_first c d s.
Proof. intros Hx. simpl. by rewrite bool_decide_eq_false_2. Qed.

(** The rendered time stamp: date, one space, hours and minutes. *)
Lemma timestamp_minutes d :
  0 <= year d <= 9999 ->
  replace_first 84 32 (slice0 16 (toISOString d))
  = pad_digits 4 (year d) ++ js "-" ++ pad_digits 2 (month d) ++ js "-"
    ++ pad_digits 2 (day d) ++ js " " ++ pad_digits 2 (hours d) ++ js ":"
    ++ pad_digits 2 (minutes d).
Proof.
  intros Hy. unfold toISOString.
  replace ((0 <=? year d) && (year d <=? 9999)) with true
    by (symmetry; apply andb_true_intro; split; lia).
  change (js "-") with [45%N]. change (js "T") with [84%N].
  change (js ":") with [58%N]. change (js " ") with [32%N].
  cbn [pad_digits app slice0 take].
  rewrite !replace_first_skip by (done || (apply digit_unit_ne; lia)).
  reflexivity.
Qed.

Lemma length_pad_digits w n : length (pad_digits w n) = w.
Proof.
  revert n. induction w as [|w IH]; intros n; simpl; [done|].
  rewrite length_app, IH. simpl. lia.
Qed.

(** C8: the record built from two string snapshots carries the length in
    code units of the old text and of the new text (not word counts), the
    identifier that the identifier source produced for this record, and the
    time of the clock cut to the minute, written as date, space, hours and
    minutes in sixteen code units (the clock's year being one of 0..9999). *)
Theorem generateVersionEntry_fields (amb : Ambient) (oldText newText : list N) :
  0 <= year (now amb) <= 9999 ->
  let entry := generateVersionEntry amb (JStr oldText) (JStr newText) in
  oldLength entry = Some (JNum (Z.of_nat (length oldText)))
  /\ newLength entry = Some (JNum (Z.of_nat (length newText)))
  /\ id entry = fresh_id amb
  /\ timestamp entry
     = pad_digits 4 (year (now amb)) ++ js "-" ++ pad_digits 2 (month (now amb))
       ++ js "-" ++ pad_digits 2 (day (now amb)) ++ js " "
       ++ pad_digits 2 (hours (now amb)) ++ js ":" ++ pad_digits 2 (minutes (now amb))
  /\ length (timestamp entry) = 16%nat.
Proof.
  intros Hy entry. repeat split.
  - unfold entry, generateVersionEntry. cbn [timestamp]. by apply timestamp_minutes.
  - unfold entry, generateVersionEntry. cbn [timestamp].
    rewrite timestamp_minutes by done.
    rewrite !length_app, !length_pad_digits. reflexivity.
Qed.

Lemma generateVersionEntry_fields_witness :
  let entry := generateVersionEntry calm (JStr (js "the cat sat")) (JStr (js "the dog sat sat")) in
  oldLength entry = Some (JNum 11)
  /\ newLength entry = Some (JNum 15)
  /\ timestamp entry = js "2025-03-09 12:05".
Proof.
  assert (0 <= year (now calm) <= 9999) as Hy by (simpl; lia).
  pose proof (generateVersionEntry_fields calm (js "the cat sat")
                (js "the dog sat sat") Hy) as H.
  cbv zeta in H. destruct H as (Ho & Hn & _ & Ht & _).
  intros entry. split; [exact Ho|]. split; [exact Hn | exact Ht].
Defined.

(** ** The save-version handler *)

Lemma old_text_of_string (c : list N) :
  (if json_truthy (Some (JStr c)) then JStr c else JStr []) = JStr c.
Proof. simpl. case_bool_decide; by subst. Qed.

(** With a string in the store and no persistence fault, a string
    submission is answered by comparing the two strings. *)
Lemma save_version_string amb (disk : option Data) (c t : list N) :
  currentText (store disk) = JStr c ->
  read_throws amb = false -> write_throws amb = false ->
  save_version amb (Some (JStr t)) disk
  = if bool_decide (t = c) then (NoChanges, Some (store disk))
    else (VersionSaved (generateVersionEntry amb (JStr c) (JStr t)),
          Some {| versions := generateVersionEntry amb (JStr c) (JStr t)
                              :: versions (store disk);
                  currentText := JStr t |}).
Proof.
  intros Hc Hr Hw.
  unfold save_version, io_catch, io_bind, readData, writeData, io_bind,
    ensureDataFile, io_ret.
  rewrite Hr, Hw.
  assert (store (match disk with None => Some initial_data | Some _ => disk end)
          = store disk) as Hs by by destruct disk.
  assert ((match disk with None => Some initial_data | Some _ => disk end)
          = Some (store disk)) as Hd by by destruct disk.
  rewrite Hs, Hc, old_text_of_string. cbn [json_strict_eq].
  case_bool_decide; by rewrite ?Hd.
Qed.

(** C2: with a string snapshot in the store and persistence working, a
    string submission creates a record, puts it in front of the stored
    records and replaces the snapshot exactly when it differs from the
    snapshot as a string; an equal submission is answered "no changes" and
    leaves the store as it was; so a second submission of the same text
    never adds a record. *)
Theorem save_version_iff_changed
    (amb amb' : Ambient) (disk : option Data) (snapshot text : list N) :
  currentText (store disk) = JStr snapshot ->
  read_throws amb = false -> write_throws amb = false ->
  read_throws amb' = false -> write_throws amb' = false ->
  let first := save_version amb (Some (JStr text)) disk in
  let second := save_version amb' (Some (JStr text)) (snd first) in
  ((exists entry,
       fst first = VersionSaved entry
       /\ store (snd first)
          = {| versions := entry :: versions (store disk); currentText := JStr text |})
   <-> text <> snapshot)
  /\ (text = snapshot -> fst first = NoChanges /\ store (snd first) = store disk)
  /\ fst second = NoChanges
  /\ store (snd second) = store (snd first)
  /\ (text <> snapshot ->
      length (versions (store (snd second))) = S (length (versions (store disk)))).
Proof.
  intros Hc Hr Hw Hr' Hw' first second.
  assert (currentText (store (snd first)) = JStr text) as Hc'.
  { unfold first. rewrite (save_version_string amb disk snapshot text) by done.
    case_bool_decide; simpl; congruence. }
  assert (second = (NoChanges, Some (store (snd first)))) as Hsecond.
  { unfold second. rewrite (save_version_string amb' (snd first) text text) by done.
    by rewrite bool_decide_eq_true_2. }
  rewrite Hsecond. clear Hsecond second. unfold first in *. clear first.
  rewrite (save_version_string amb disk snapshot text) in * by done.
  case_bool_decide as Heq; simpl.
  - split; [|by auto]. split; [by intros (entry & [=] & _) | done].
  - split; [|by auto]. split; [done | eauto].
Qed.

Lemma save_version_iff_changed_witness :
  fst (save_version calm (Some (JStr (js "hello"))) None)
  = VersionSaved (generateVersionEntry calm (JStr []) (JStr (js "hello")))
  /\ length (versions (store (snd (save_version calm (Some (JStr (js "hello")))
        (snd (save_version calm (Some (JStr (js "hello"))) None)))))) = 1%nat.
Proof.
  assert (js "hello" <> []) as Hne by discriminate.
  pose proof (save_version_iff_changed calm calm None [] (js "hello")
                eq_refl eq_refl eq_refl eq_refl eq_refl) as H.
  cbv zeta in H. destruct H as (Hiff & _ & _ & _ & Hlen).
  split; [reflexivity | exact (Hlen Hne)].
Defined.

(** C7: when the stored text and the submitted text are different strings
    with the same word sequence, a record is still created and stored, and
    its added list and its removed list are both empty. *)
Theorem whitespace_only_change
    (amb : Ambient) (disk : option Data) (oldText newText : list N) :
  currentText (store disk) = JStr oldText ->
  read_throws amb = false -> write_throws amb = false ->
  oldText <> newText ->
  extractWords (Some (JStr oldText)) = extractWords (Some (JStr newText)) ->
  exists entry,
    save_version amb (Some (JStr newText)) disk
    = (VersionSaved entry,
       Some {| versions := entry :: versions (store disk);
               currentText := JStr newText |})
    /\ addedWords entry = [] /\ removedWords entry = [].
Proof.
  intros Hc Hr Hw Hne Hwords.
  exists (generateVersionEntry amb (JStr oldText) (JStr newText)).
  rewrite (save_version_string amb disk oldText newText) by done.
  rewrite bool_decide_eq_false_2 by congruence.
  split; [done|]. unfold generateVersionEntry. cbn [addedWords removedWords].
  rewrite Hwords. split; [apply findAddedWords_same | apply findRemovedWords_same].
Qed.

Lemma whitespace_only_change_witness :
  exists entry,
    save_version calm (Some (JStr (js "hello world"))) spaced_store
    = (VersionSaved entry,
       Some {| versions := [entry]; currentText := JStr (js "hello world") |})
    /\ addedWords entry = [] /\ removedWords entry = [].
Proof.
  apply (whitespace_only_change calm spaced_store (js "hello  world") (js "hello world"));
    [reflexivity | reflexivity | reflexivity | discriminate | vm_compute; reflexivity].
Defined.





(** * Further properties of the server *)

(** ** Persistence *)

Lemma ensured_store (disk : option Data) :
  match disk with None => Some initial_data | Some _ => disk end = Some (store disk).
Proof. by destruct disk. Qed.

Lemma store_Some (data : Data) : store (Some data) = data.
Proof. done. Qed.

Lemma get_versions_reply (amb : Ambient) (disk : option Data) :
  fst (get_versions amb disk)
  = (if read_throws amb then InternalServerError
     else VersionList (versions (store disk)) (currentText (store disk))).
Proof.
  unfold get_versions, io_catch, io_bind, readData, io_bind, ensureDataFile, io_ret,
    io_throw.
  rewrite ensured_store. by destruct (read_throws amb).
Qed.

Lemma get_versions_store (amb : Ambient) (disk : option Data) :
  store (snd (get_versions amb disk)) = store disk.
Proof.
  unfold get_versions, io_catch, io_bind, readData, io_bind, ensureDataFile, io_ret,
    io_throw.
  rewrite ensured_store. by destruct (read_throws amb).
Qed.

Lemma get_versions_file (amb : Ambient) (disk : option Data) :
  read_throws amb = false -> snd (get_versions amb disk) = Some (store disk).
Proof.
  intros Hr.
  unfold get_versions, io_catch, io_bind, readData, io_bind, ensureDataFile, io_ret,
    io_throw.
  by rewrite ensured_store, Hr.
Qed.

(** Reading the versions never changes what is stored: the stored history
    and text are the same after it as before, also when it fails.  It
    answers them (the empty history and the empty text while the data file
    is missing) unless the file cannot be read, which it answers with 500;
    after a reading that went through the data file exists. *)
Theorem get_versions_reads_only (amb : Ambient) (disk : option Data) :
  store (snd (get_versions amb disk)) = store disk
  /\ fst (get_versions amb disk)
     = (if read_throws amb then InternalServerError
        else VersionList (versions (store disk)) (currentText (store disk)))
  /\ (read_throws amb = true \/ snd (get_versions amb disk) = Some (store disk)).
Proof.
  split; [apply get_versions_store|]. split; [apply get_versions_reply|].
  destruct (read_throws amb) eqn:Hr; [by left|]. right. by apply get_versions_file.
Qed.

(** ** The answers of the save-version handler, case by case *)

Lemma save_version_cases (amb : Ambient) (text : option json) (disk : option Data) :
  match fst (save_version amb text disk) with
  | TextRequired =>
      (text = None \/ text = Some JNull) /\ snd (save_version amb text disk) = disk
  | NoChanges =>
      (exists t, text = Some t /\ t <> JNull
                 /\ json_strict_eq t (old_text (store disk)) = true)
      /\ read_throws amb = false
      /\ snd (save_version amb text disk) = Some (store disk)
  | VersionSaved version =>
      (exists t, text = Some t /\ t <> JNull
                 /\ json_strict_eq t (old_text (store disk)) = false
                 /\ version = generateVersionEntry amb (old_text (store disk)) t
                 /\ snd (save_version amb text disk)
                    = Some {| versions := version :: versions (store disk);
                              currentText := t |})
      /\ read_throws amb = false /\ write_throws amb = false
  | InternalServerError =>
      (read_throws amb = true \/ write_throws amb = true)
      /\ store (snd (save_version amb text disk)) = store disk
  | VersionList _ _ => False
  end.
Proof.
  unfold save_version, io_catch, io_bind, readData, writeData, io_bind,
    ensureDataFile, io_ret, io_throw.
  destruct text as [[]|]; cbv beta iota;
    try (split; [by auto | done]);
    destruct (read_throws amb) eqn:Hr; cbv beta iota;
    rewrite ?ensured_store, ?store_Some; cbn [fst snd];
    try (split; [by auto | done]).
  all: change (if json_truthy (Some (currentText (store disk)))
               then currentText (store disk) else JStr [])
         with (old_text (store disk)).
  all: destruct (json_strict_eq _ (old_text (store disk))) eqn:He; cbv beta iota;
    cbn [fst snd]; [by eauto 10|].
  all: destruct (write_throws amb) eqn:Hw; cbv beta iota; cbn [fst snd];
    [split; [by auto | done] | by eauto 10].
Qed.



(** ** The stored history *)

(** However the requests go, as long as no write to the data file fails,
    the stored history afterwards is the history before with exactly the
    records answered as created put in front, newest first: no record is
    ever dropped, changed or reordered. *)
Theorem history_is_created_records
    (requests : list (Ambient * option json)) (disk : option Data) :
  Forall (fun request => write_throws request.1 = false) requests ->
  versions (store (snd (serve requests disk)))
  = rev (created (fst (serve requests disk))) ++ versions (store disk).
Proof.
  intros Hw. revert disk. induction Hw as [|[amb text] requests Hamb _ IH];
    intros disk; [done|].
  simpl in Hamb. cbn [serve].
  pose proof (save_version_cases amb text disk) as H.
  destruct (save_version amb text disk) as [response disk'] eqn:Hsave.
  specialize (IH disk').
  destruct (serve requests disk') as [responses disk''] eqn:Hserve.
  cbn [fst snd] in *. rewrite IH.
  destruct response; cbn [created rev].
  - destruct H as [_ ->]. done.
  - destruct H as (_ & _ & ->). done.
  - destruct H as ((t & _ & _ & _ & _ & ->) & _). rewrite store_Some.
    cbn [versions]. by rewrite <- app_assoc.
  - done.
  - destruct H as (_ & ->). done.
Qed.

Lemma history_is_created_records_witness :
  versions (store (snd (serve [(calm, Some (JStr (js "a"))); (calm, Some (JStr (js "a")));
                                (calm, Some (JStr (js "a b")))] None)))
  = [generateVersionEntry calm (JStr (js "a")) (JStr (js "a b"));
     generateVersionEntry calm (JStr []) (JStr (js "a"))].
Proof.
  rewrite (history_is_created_records
             [(calm, Some (JStr (js "a"))); (calm, Some (JStr (js "a")));
              (calm, Some (JStr (js "a b")))] None).
  - reflexivity.
  - repeat constructor.
Defined.

(** While only strings are submitted and no write fails, the snapshot stays
    a string and the recorded lengths chain up: the newest record ends with
    the length of the snapshot, every record starts with the length its
    predecessor ended with, and the oldest record starts from length 0. *)
Theorem lengths_chain (requests : list (Ambient * option json)) (disk : option Data) :
  Forall (fun request => write_throws request.1 = false
                         /\ exists s, request.2 = Some (JStr s)) requests ->
  (exists s, currentText (store disk) = JStr s
             /\ chained (Z.of_nat (length s)) (versions (store disk))) ->
  exists s, currentText (store (snd (serve requests disk))) = JStr s
            /\ chained (Z.of_nat (length s)) (versions (store (snd (serve requests disk)))).
Proof.
  intros Hreq. revert disk.
  induction Hreq as [|[amb text] requests [Hw [t Ht]] _ IH]; intros disk Hinv; [done|].
  simpl in Hw, Ht. subst text. cbn [serve].
  pose proof (save_version_cases amb (Some (JStr t)) disk) as H.
  destruct (save_version amb (Some (JStr t)) disk) as [response disk'] eqn:Hsave.
  specialize (IH disk').
  destruct (serve requests disk') as [responses disk''] eqn:Hserve.
  cbn [fst snd] in *. apply IH. clear IH Hserve.
  destruct Hinv as (c & Hc & Hchain).
  destruct response.
  - destruct H as [_ ->]. eauto.
  - destruct H as (_ & _ & ->). rewrite store_Some. eauto.
  - destruct H as ((t' & [= <-] & _ & _ & -> & ->) & _). rewrite store_Some.
    exists t. split; [done|]. cbn [versions chained].
    unfold old_text. rewrite Hc, old_text_of_string.
    split; [done|]. exists (Z.of_nat (length c)). by split.
  - done.
  - destruct H as (_ & ->). eauto.
Qed.

Lemma lengths_chain_witness :
  exists s,
    currentText (store (snd (serve [(calm, Some (JStr (js "a")));
                                    (calm, Some (JStr (js "a b")))] None))) = JStr s
    /\ chained (Z.of_nat (length s))
         (versions (store (snd (serve [(calm, Some (JStr (js "a")));
                                       (calm, Some (JStr (js "a b")))] None)))).
Proof.
  apply (lengths_chain [(calm, Some (JStr (js "a"))); (calm, Some (JStr (js "a b")))] None).
  - repeat constructor; by eexists.
  - exists []. by split.
Defined.

(** ** Submissions that are not strings, snapshots that are falsy *)

(** A stored snapshot that is falsy (0, false, null or the empty string)
    is compared as the empty string: the answer is the one an empty-string
    snapshot gives, so that submitting the empty string over a stored 0 is
    answered "no changes". *)
Theorem falsy_snapshot_reads_as_empty
    (amb : Ambient) (text : option json) (disk : option Data) :
  json_truthy (Some (currentText (store disk))) = false ->
  fst (save_version amb text disk)
  = fst (save_version amb text
           (Some {| versions := versions (store disk); currentText := JStr [] |})).
Proof.
  intros Hfalsy.
  unfold save_version, io_catch, io_bind, readData, writeData, io_bind,
    ensureDataFile, io_ret, io_throw.
  destruct text as [[]|]; cbv beta iota; try done;
    destruct (read_throws amb); cbv beta iota; try done;
    rewrite ensured_store, !store_Some; cbn [currentText versions];
    rewrite Hfalsy; cbn [json_truthy];
    rewrite bool_decide_eq_true_2 by done; cbn [negb];
    destruct (json_strict_eq _ (JStr [])); cbv beta iota; try done;
    destruct (write_throws amb); done.
Qed.

Lemma falsy_snapshot_reads_as_empty_witness :
  fst (save_version calm (Some (JStr []))
         (Some {| versions := []; currentText := JNum 0 |})) = NoChanges.
Proof.
  rewrite (falsy_snapshot_reads_as_empty calm (Some (JStr []))
             (Some {| versions := []; currentText := JNum 0 |})); reflexivity.
Defined.

(** An array or an object as text always counts as a change, whatever is
    stored (even the same array or object): with persistence working, a
    record is created each time, and it has no added words. *)
Theorem compound_text_always_saved
    (amb : Ambient) (text : json) (disk : option Data) :
  (exists items, text = JArr items) \/ (exists fields, text = JObj fields) ->
  read_throws amb = false -> write_throws amb = false ->
  exists version,
    save_version amb (Some text) disk
    = (VersionSaved version,
       Some {| versions := version :: versions (store disk); currentText := text |})
    /\ addedWords version = [].
Proof.
  intros Hcompound Hr Hw.
  exists (generateVersionEntry amb (old_text (store disk)) text).
  unfold save_version, io_catch, io_bind, readData, writeData, io_bind,
    ensureDataFile, io_ret, io_throw.
  destruct Hcompound as [[items ->]|[fields ->]]; cbv beta iota;
    rewrite Hr, Hw; cbv beta iota; rewrite ensured_store, !store_Some; done.
Qed.

Lemma compound_text_always_saved_witness :
  exists version,
    save_version calm (Some (JArr []))
      (Some {| versions := []; currentText := JArr [] |})
    = (VersionSaved version,
       Some {| versions := [version]; currentText := JArr [] |})
    /\ addedWords version = [].
Proof.
  apply (compound_text_always_saved calm (JArr [])
           (Some {| versions := []; currentText := JArr [] |}));
    [left; by exists [] | reflexivity | reflexivity].
Defined.

(** * Further properties of the tokenizer *)

Lemma maximal_runs_from_app_sep run s c t :
  is_ws c = true ->
  maximal_runs_from run (s ++ c :: t)
  = maximal_runs_from run s ++ maximal_runs_from [] t.
Proof.
  intros Hc. revert run. induction s as [|a s IH]; intros run; simpl.
  - rewrite Hc. by destruct run.
  - destruct (is_ws a); [|by apply IH]. destruct run; simpl; by rewrite IH.
Qed.

(** Tokenizing two texts joined by a white-space code unit gives the words
    of the first followed by the words of the second. *)
Theorem extractWords_app (s t : list N) (c : N) :
  is_ws c = true ->
  extractWords (Some (JStr (s ++ c :: t)))
  = extractWords (Some (JStr s)) ++ extractWords (Some (JStr t)).
Proof.
  intros Hc. rewrite !extractWords_string. by apply maximal_runs_from_app_sep.
Qed.

Lemma extractWords_app_witness :
  extractWords (Some (JStr (js "the cat" ++ 10%N :: js " sat")))
  = extractWords (Some (JStr (js "the cat"))) ++ extractWords (Some (JStr (js " sat"))).
Proof. apply (extractWords_app (js "the cat") (js " sat") 10%N). reflexivity. Defined.

(** A text has no words exactly when it consists of white space only (the
    empty text included). *)
Theorem extractWords_nil_iff_blank (s : list N) :
  extractWords (Some (JStr s)) = [] <-> Forall (fun c => is_ws c = true) s.
Proof.
  rewrite extractWords_string. split.
  - intros Hnil.
    pose proof (maximal_runs_from_concat [] s) as Hcat.
    fold (maximal_runs s) in Hcat. rewrite Hnil in Hcat. simpl in Hcat.
    apply Forall_forall. intros c Hc.
    destruct (is_ws c) eqn:Hws; [done|].
    assert (c ∈ filter (fun c => is_ws c = false) s) as Hin
      by (apply list_elem_of_filter; done).
    rewrite <- Hcat in Hin. by apply elem_of_nil in Hin.
  - intros Hblank. unfold maximal_runs. by rewrite maximal_runs_from_ws.
Qed.

(** ** The word counter of the editor page *)

Lemma drop_ws_head s :
  drop_ws s = [] \/ exists c s', drop_ws s = c :: s' /\ is_ws c = false.
Proof.
  induction s as [|c s IH]; simpl; [by left|].
  destruct (is_ws c) eqn:Hc; [done|]. right. eauto.
Qed.

Lemma trim_shape s :
  trim s = []
  \/ exists c t, trim s = c :: t /\ is_ws c = false
                 /\ forall t0 d, c :: t = t0 ++ [d] -> is_ws d = false.
Proof.
  unfold trim. destruct (drop_ws_head s) as [->|(c & s' & -> & Hc)]; [by left|].
  right. simpl.
  destruct (drop_ws_keeps_last (rev s') c Hc) as [r' Hr'].
  destruct (drop_ws_head (rev s' ++ [c])) as [Hnil|(e & u & Hu & He)].
  { rewrite Hr' in Hnil. by destruct r'. }
  exists c, (rev r'). split; [by rewrite Hr', rev_unit|]. split; [done|].
  intros t0 d Heq. rewrite <- (rev_unit r' c), <- Hr', Hu in Heq. simpl in Heq.
  apply app_inj_tail in Heq as [_ <-]. done.
Qed.

Lemma split_fragments_nonempty fragment in_sep t :
  (t = [] -> fragment <> []) ->
  (in_sep = false -> fragment = [] -> exists c t', t = c :: t' /\ is_ws c = false) ->
  (forall t0 d, t = t0 ++ [d] -> is_ws d = false) ->
  Forall (fun word : list N => (0 < length word)%nat) (split_ws_from fragment in_sep t).
Proof.
  revert fragment in_sep. induction t as [|c t IH]; intros fragment in_sep H1 H2 H3; simpl.
  - constructor; [|constructor]. destruct fragment; [by destruct H1|simpl; lia].
  - destruct (is_ws c) eqn:Hc.
    + assert (t <> []) as Ht.
      { intros ->. specialize (H3 [] c eq_refl). congruence. }
      assert (Forall (fun word : list N => (0 < length word)%nat)
                (split_ws_from [] true t)) as Hrest.
      { apply IH; [done | done |]. intros t0 d ->. by apply (H3 (c :: t0) d). }
      destruct in_sep; [done|]. constructor; [|done].
      destruct fragment; [|simpl; lia].
      destruct (H2 eq_refl eq_refl) as (c' & t' & [= <- <-] & Hc'). congruence.
    + apply IH.
      * intros _. by destruct fragment.
      * intros _ Hnil. by destruct fragment.
      * intros t0 d ->. by apply (H3 (c :: t0) d).
Qed.

Lemma filter_all (P : list N -> Prop) `{forall x, Decision (P x)} (l : list (list N)) :
  Forall P l -> filter P l = l.
Proof.
  induction 1 as [|x l Hx _ IH]; [done|]. by rewrite filter_cons_True, IH.
Qed.

(** The "Words:" figure of the editor is the number of words the server's
    tokenizer finds in the same text. *)
Theorem word_count_is_number_of_words (text : list N) :
  App.word_count text = length (extractWords (Some (JStr text))).
Proof.
  unfold App.word_count. rewrite extractWords_string, <- maximal_runs_trim.
  case_bool_decide as Hnil; simpl; [by rewrite Hnil|].
  unfold maximal_runs. rewrite <- (filter_split_ws_from [] false) by done.
  fold (split_ws (trim text)). rewrite filter_all; [done|].
  destruct (trim_shape text) as [?|(c & t & Heq & Hc & Hlast)]; [done|].
  rewrite Heq. apply split_fragments_nonempty; [done | eauto | done].
Qed.

(** * Further properties of the differ *)

(** ** The counting objects *)

Lemma count_words_lookup_plain w l :
  ObjectPrototype w = None ->
  count_words l !! w
  = if bool_decide (w ∈ l) then Some (PNum (Z.of_nat (occ w l))) else None.
Proof.
  intros Hw. induction l as [|x l IH] using rev_ind; [done|].
  rewrite count_words_snoc.
  destruct (decide (x = w)) as [->|Hne].
  - rewrite count_step_lookup_eq by (intros ->; by apply ObjectPrototype_proto_key).
    rewrite counted_plain by done.
    rewrite (bool_decide_eq_true_2 (w ∈ l ++ [w])) by (apply elem_of_app; right; left).
    rewrite occ_app. simpl. rewrite (bool_decide_eq_true_2 (w = w)) by done.
    unfold js_add. simpl. do 2 f_equal. lia.
  - rewrite count_step_lookup_ne, IH by done.
    rewrite occ_app. simpl. rewrite (bool_decide_eq_false_2 (x = w)) by done.
    rewrite Nat.add_0_r.
    destruct (decide (w ∈ l)) as [Hin|Hout].
    + rewrite !bool_decide_eq_true_2; [done | apply elem_of_app; by left | done].
    + rewrite !bool_decide_eq_false_2; [done | | done].
      rewrite elem_of_app, list_elem_of_singleton. naive_solver.
Qed.

(** After the counting loop, a word that [Object.prototype] does not know
    has the number of its occurrences as its entry, and no entry when it
    does not occur; a word that names an inherited property never has a
    number as its entry. *)
Theorem count_words_entry (w : list N) (l : list (list N)) :
  if inherited w
  then forall n, count_words l !! w <> Some (PNum n)
  else count_words l !! w
       = (if bool_decide (w ∈ l) then Some (PNum (Z.of_nat (occ w l))) else None).
Proof.
  unfold inherited. destruct (ObjectPrototype w) as [v|] eqn:Hw.
  - intros n Hn.
    assert (ObjectPrototype w <> None) as Hw' by congruence.
    destruct (counted_inherited w l Hw') as (s & Hs & _).
    unfold js_get in Hs. rewrite Hn in Hs. simpl in Hs.
    by destruct (n =? 0).
  - by apply count_words_lookup_plain.
Qed.

(** ** Multiplicities *)

Lemma occ_replicate w n x :
  occ w (replicate n x) = if bool_decide (x = w) then n else 0%nat.
Proof.
  induction n as [|n IH]; simpl; [by case_bool_decide|].
  rewrite IH. by case_bool_decide.
Qed.

Lemma occ_not_elem w l : w ∉ l -> occ w l = 0%nat.
Proof. intros Hw. pose proof (proj1 (occ_pos w l)). destruct (occ w l); [done|]. 
  exfalso. apply Hw. apply H. lia. Qed.

Lemma occ_emitted a b x w :
  occ w (emitted a b x)
  = if bool_decide (x = w)
    then (if inherited w then 0 else occ w b - occ w a)%nat else 0%nat.
Proof.
  unfold emitted. case_bool_decide as Hx.
  - subst x. destruct (inherited w); [done|].
    rewrite occ_replicate. by rewrite bool_decide_eq_true_2.
  - destruct (inherited x); [done|].
    rewrite occ_replicate. by rewrite bool_decide_eq_false_2.
Qed.

Lemma occ_flat_map_emitted a b l w :
  NoDup l ->
  occ w (flat_map (emitted a b) l)
  = if bool_decide (w ∈ l)
    then (if inherited w then 0 else occ w b - occ w a)%nat else 0%nat.
Proof.
  induction 1 as [|x l Hx _ IH]; simpl; [done|].
  rewrite occ_app, IH, occ_emitted.
  destruct (decide (x = w)) as [->|Hne].
  - rewrite bool_decide_eq_true_2 by done.
    rewrite (bool_decide_eq_false_2 (w ∈ l)) by done.
    rewrite bool_decide_eq_true_2 by left. lia.
  - rewrite bool_decide_eq_false_2 by done. simpl.
    destruct (decide (w ∈ l)) as [Hin|Hout].
    + rewrite !bool_decide_eq_true_2; [done | by right | done].
    + rewrite !bool_decide_eq_false_2; [done | | done].
      rewrite elem_of_cons. naive_solver.
Qed.

Lemma occ_findAddedWords (oldWords newWords : list (list N)) (w : list N) :
  occ w (findAddedWords oldWords newWords)
  = (if inherited w then 0 else occ w newWords - occ w oldWords)%nat.
Proof.
  rewrite findAddedWords_emitted.
  rewrite occ_flat_map_emitted by apply NoDup_first_appearances.
  case_bool_decide as Hin; [done|].
  rewrite elem_of_distinct_words in Hin. rewrite (occ_not_elem w newWords) by done.
  by destruct (inherited w).
Qed.

Lemma occ_findRemovedWords (oldWords newWords : list (list N)) (w : list N) :
  occ w (findRemovedWords oldWords newWords)
  = (if inherited w then 0 else occ w oldWords - occ w newWords)%nat.
Proof.
  rewrite findRemovedWords_emitted.
  rewrite occ_flat_map_emitted by apply NoDup_first_appearances.
  case_bool_decide as Hin; [done|].
  rewrite elem_of_distinct_words in Hin. rewrite (occ_not_elem w oldWords) by done.
  by destruct (inherited w).
Qed.

(** For all sequences: a word occurs in the added list as many times as
    its count in the new sequence exceeds its count in the old one, and in
    the removed list as many times as its old count exceeds its new one,
    except that the names inherited from [Object.prototype] occur in
    neither list. *)
Theorem differ_multiplicities (oldWords newWords : list (list N)) (w : list N) :
  occ w (findAddedWords oldWords newWords)
  = (if inherited w then 0 else occ w newWords - occ w oldWords)%nat
  /\ occ w (findRemovedWords oldWords newWords)
     = (if inherited w then 0 else occ w oldWords - occ w newWords)%nat.
Proof. split; [apply occ_findAddedWords | apply occ_findRemovedWords]. Qed.

(** ** The differ as a multiset difference *)

Lemma occ_count_occ w (l : list (list N)) :
  occ w l = count_occ (decide_rel (=)) l w.
Proof.
  induction l as [|x l IH]; simpl; [done|]. rewrite IH.
  case_bool_decide; destruct (decide_rel eq x w); done.
Qed.

Lemma occ_Permutation w (l l' : list (list N)) : l ≡ₚ l' -> occ w l = occ w l'.
Proof. intros H. rewrite !occ_count_occ. by apply Permutation_count_occ. Qed.

Lemma plain_not_inherited l w :
  Forall (fun x => inherited x = false) l -> inherited w = true -> occ w l = 0%nat.
Proof.
  intros Hl Hw. apply occ_not_elem. intros Hin.
  rewrite Forall_forall in Hl. specialize (Hl w Hin). congruence.
Qed.

(** When no word names an inherited property, the old words together with
    the added ones are, up to order, the new words together with the
    removed ones. *)
Theorem differ_balance (oldWords newWords : list (list N)) :
  Forall (fun w => inherited w = false) oldWords ->
  Forall (fun w => inherited w = false) newWords ->
  oldWords ++ findAddedWords oldWords newWords
  ≡ₚ newWords ++ findRemovedWords oldWords newWords.
Proof.
  intros Hold Hnew.
  apply (Permutation_count_occ (decide_rel (=))). intros w.
  rewrite <- !occ_count_occ, !occ_app.
  rewrite occ_findAddedWords, occ_findRemovedWords.
  destruct (inherited w) eqn:Hw; [|lia].
  by rewrite (plain_not_inherited oldWords w), (plain_not_inherited newWords w).
Qed.

Lemma differ_balance_witness :
  [js "the"; js "cat"] ++ findAddedWords [js "the"; js "cat"] [js "dog"; js "the"; js "dog"]
  ≡ₚ [js "dog"; js "the"; js "dog"]
     ++ findRemovedWords [js "the"; js "cat"] [js "dog"; js "the"; js "dog"].
Proof.
  apply (differ_balance [js "the"; js "cat"] [js "dog"; js "the"; js "dog"]);
    repeat constructor.
Defined.

(** ** Order does not matter *)

Lemma flat_map_emitted_ext a a' b b' l :
  (forall w, occ w a = occ w a') -> (forall w, occ w b = occ w b') ->
  flat_map (emitted a b) l = flat_map (emitted a' b') l.
Proof.
  intros Ha Hb. induction l as [|w l IH]; simpl; [done|].
  rewrite IH. unfold emitted. by rewrite Ha, Hb.
Qed.

(** Reordering the old words changes neither list's content: the added
    list stays the same, and so does the removed list of a comparison in
    which the reordered sequence is the new one. *)
Theorem differ_ignores_order_of_other (oldWords oldWords' newWords : list (list N)) :
  oldWords ≡ₚ oldWords' ->
  findAddedWords oldWords newWords = findAddedWords oldWords' newWords
  /\ findRemovedWords newWords oldWords = findRemovedWords newWords oldWords'.
Proof.
  intros Hperm. rewrite !findAddedWords_emitted, !findRemovedWords_emitted.
  split; apply flat_map_emitted_ext; try done; intros w; by apply occ_Permutation.
Qed.

Lemma differ_ignores_order_of_other_witness :
  findAddedWords [js "a"; js "b"] [js "b"; js "c"]
  = findAddedWords [js "b"; js "a"] [js "b"; js "c"]
  /\ findRemovedWords [js "b"; js "c"] [js "a"; js "b"]
     = findRemovedWords [js "b"; js "c"] [js "b"; js "a"].
Proof.
  apply (differ_ignores_order_of_other [js "a"; js "b"] [js "b"; js "a"] [js "b"; js "c"]).
  apply perm_swap.
Defined.

(** A new text that only reorders the words of the old one has no added
    and no removed words. *)
Theorem differ_reordering_is_empty (oldWords newWords : list (list N)) :
  oldWords ≡ₚ newWords ->
  findAddedWords oldWords newWords = [] /\ findRemovedWords oldWords newWords = [].
Proof.
  intros Hperm. apply differ_empty_iff. intros w _. by apply occ_Permutation.
Qed.

Lemma differ_reordering_is_empty_witness :
  findAddedWords [js "a"; js "b"; js "a"] [js "b"; js "a"; js "a"] = []
  /\ findRemovedWords [js "a"; js "b"; js "a"] [js "b"; js "a"; js "a"] = [].
Proof.
  apply (differ_reordering_is_empty [js "a"; js "b"; js "a"] [js "b"; js "a"; js "a"]).
  apply perm_swap.
Defined.

(** * Further properties of the version record builder *)

Lemma pad_digits_inj w n m :
  0 <= n < 10 ^ Z.of_nat w -> 0 <= m < 10 ^ Z.of_nat w ->
  pad_digits w n = pad_digits w m -> n = m.
Proof.
  revert n m. induction w as [|w IH]; intros n m Hn Hm Heq.
  - simpl in Hn, Hm. lia.
  - rewrite Nat2Z.inj_succ, Z.pow_succ_r in Hn, Hm by lia.
    simpl in Heq. apply app_inj_tail in Heq as [Hhigh Hlow].
    assert (n / 10 = m / 10) as Hdiv.
    { apply IH; [| |done]; split;
        try (apply Z.div_pos; lia); apply Z.div_lt_upper_bound; lia. }
    pose proof (Z.mod_pos_bound n 10). pose proof (Z.mod_pos_bound m 10).
    assert (n mod 10 = m mod 10) as Hmod by lia.
    rewrite (Z.div_mod n 10), (Z.div_mod m 10) by lia. congruence.
Qed.

(** Two records built from strings carry the same time stamp exactly when
    they were built in the same minute of the same day: seconds and
    milliseconds never show, and different minutes never collide. *)
Theorem timestamp_same_minute
    (amb amb' : Ambient) (oldText newText oldText' newText' : list N) :
  in_calendar (now amb) -> in_calendar (now amb') ->
  timestamp (generateVersionEntry amb (JStr oldText) (JStr newText))
  = timestamp (generateVersionEntry amb' (JStr oldText') (JStr newText'))
  <-> same_minute (now amb) (now amb').
Proof.
  intros (Hy & Hmo & Hd & Hh & Hmi) (Hy' & Hmo' & Hd' & Hh' & Hmi').
  unfold generateVersionEntry. cbn [timestamp]. rewrite !timestamp_minutes by done.
  split.
  - intros Heq.
    apply app_inj_1 in Heq as [Hyear Heq]; [|by rewrite !length_pad_digits].
    apply app_inj_1 in Heq as [_ Heq]; [|done].
    apply app_inj_1 in Heq as [Hmonth Heq]; [|by rewrite !length_pad_digits].
    apply app_inj_1 in Heq as [_ Heq]; [|done].
    apply app_inj_1 in Heq as [Hday Heq]; [|by rewrite !length_pad_digits].
    apply app_inj_1 in Heq as [_ Heq]; [|done].
    apply app_inj_1 in Heq as [Hhours Heq]; [|by rewrite !length_pad_digits].
    apply app_inj_1 in Heq as [_ Hminutes]; [|done].
    repeat split; (eapply pad_digits_inj; [| |eassumption]); simpl; lia.
  - intros (-> & -> & -> & -> & ->). done.
Qed.

Lemma timestamp_same_minute_witness :
  timestamp (generateVersionEntry calm (JStr []) (JStr (js "a")))
  = timestamp (generateVersionEntry noon_sharp (JStr (js "a")) (JStr (js "b"))).
Proof.
  apply (timestamp_same_minute calm noon_sharp [] (js "a") (js "a") (js "b")).
  - unfold in_calendar. simpl. lia.
  - unfold in_calendar. simpl. lia.
  - repeat split.
Defined.

(** * Properties of the editor page *)

(** When a version is saved, every record already stored keeps the number
    under which the page lists it, and the new record is listed first with
    the next number. *)
Theorem version_numbers_are_stable
    (amb : Ambient) (text : option json) (disk : option Data)
    (version : VersionEntry) (index : nat) :
  fst (save_version amb text disk) = VersionSaved version ->
  versions (store (snd (save_version amb text disk))) = version :: versions (store disk)
  /\ App.version_number (versions (store (snd (save_version amb text disk)))) (S index)
     = App.version_number (versions (store disk)) index
  /\ App.version_number (versions (store (snd (save_version amb text disk)))) 0
     = Z.of_nat (length (versions (store disk))) + 1.
Proof.
  intros Hsaved. pose proof (save_version_cases amb text disk) as H.
  rewrite Hsaved in H. destruct H as ((t & _ & _ & _ & _ & ->) & _).
  rewrite store_Some. cbn [versions]. unfold App.version_number. simpl length.
  repeat split; lia.
Qed.

Lemma version_numbers_are_stable_witness :
  App.version_number
    (versions (store (snd (save_version calm (Some (JStr (js "hello world"))) spaced_store))))
    0 = 1.
Proof.
  pose proof (version_numbers_are_stable calm (Some (JStr (js "hello world")))
                spaced_store _ 0%nat eq_refl) as (_ & _ & H).
  exact H.
Defined.

(** After a click on "Save Version" the page is never left loading; it
    reports success exactly when the server answered that a version was
    created and the refresh request went through; the status line is
    styled as an error only after a network failure; and an error answer of
    the server (400 or 500) is shown as "No changes detected." with the
    editor and the list left as they were. *)
Theorem handleSaveVersion_outcome (saved listed : App.fetched) (st : App.State) :
  App.isLoading (App.handleSaveVersion saved listed st) = false
  /\ (App.statusMessage (App.handleSaveVersion saved listed st)
      = js "Version saved successfully!"
      <-> (exists version, saved = App.Reply (VersionSaved version))
          /\ listed <> App.NetworkError)
  /\ (App.status_class (App.handleSaveVersion saved listed st) = js "error"
      <-> saved = App.NetworkError
          \/ ((exists version, saved = App.Reply (VersionSaved version))
              /\ listed = App.NetworkError))
  /\ App.handleSaveVersion (App.Reply TextRequired) listed st
     = {| App.text := App.text st; App.versions := App.versions st;
          App.isLoading := false; App.statusMessage := js "No changes detected." |}
  /\ App.handleSaveVersion (App.Reply InternalServerError) listed st
     = {| App.text := App.text st; App.versions := App.versions st;
          App.isLoading := false; App.statusMessage := js "No changes detected." |}.
Proof.
  split; [done|]. split; [|split; [|done]].
  - destruct saved as [|[]], listed as [|data]; vm_compute;
      (split; [try discriminate; eauto | intros [[v [=]] Hl]; try done]).
    all: try (intros _; split; [by eauto | done]).
  - destruct saved as [|[]], listed as [|data]; vm_compute;
      (split; [try discriminate; eauto | intros [[=]|[[v [=]] Hl]]; try done]).
Qed.

(** ** One click, against the server *)





(** The page marks a version "Only whitespace or formatting changes"
    exactly when it shows neither added nor removed words, and for a record
    built from two strings that is exactly when the two texts have every
    word that is not an inherited name equally often. *)
Theorem whitespace_note_shown (amb : Ambient) (oldText newText : list N) :
  let version := generateVersionEntry amb (JStr oldText) (JStr newText) in
  (App.shows_whitespace_note version
   = negb (App.shows_added version) && negb (App.shows_removed version))
  /\ (App.shows_whitespace_note version = true
      <-> forall w, inherited w = false ->
            occ w (extractWords (Some (JStr oldText)))
            = occ w (extractWords (Some (JStr newText)))).
Proof.
  intros version. split.
  - unfold App.shows_whitespace_note, App.shows_added, App.shows_removed.
    destruct (addedWords version), (removedWords version); done.
  - rewrite <- differ_empty_iff.
    unfold App.shows_whitespace_note, version, generateVersionEntry.
    cbn [addedWords removedWords].
    rewrite andb_true_iff, !bool_decide_eq_true, !length_zero_iff_nil. done.
Qed.
